(** * dbreaker: a circuit breaker in front of a database/sql driver

    A shallow embedding of [breaker.go].  The package wraps a native
    [database/sql] driver with a driver whose [Disable] method switches
    database access off and on again.

    Go objects that the code shares by pointer (the [*Breaker] captured by
    the [down] closure of every [Conn]) live in an explicit heap; the
    methods are computations in a state monad over the whole world, with
    failure for a Go panic.  The [database/sql] package and the native
    driver are outside the package: their types and their behaviour are the
    fields of two classes, and every theorem holds for all instances. *)

From Stdlib Require Import Ascii String.
From stdpp Require Import base option list gmap strings.

(** A Go result pair [(v, err)]: [Ok v] is [(v, nil)], [Err e] is
    [(nil, e)]. *)
Inductive result (E A : Type) : Type :=
| Ok (v : A)
| Err (err : E).
Arguments Ok {E A} v.
Arguments Err {E A} err.

(** ** What the package imports *)

(** The types of [database/sql], [database/sql/driver] and [context] that
    the code mentions, and the state the native side keeps. *)
Class Extern := {
  NW : Type;          (* state of the native driver and of database/sql *)
  DB : Type;          (* *sql.DB, a connection-pool handle *)
  Stmt : Type;        (* driver.Stmt *)
  Tx : Type;          (* driver.Tx *)
  context_Context : Type;   (* context.Context *)
  TxOptions : Type;   (* driver.TxOptions *)
  NErr : Type;        (* error values made outside this package *)
}.

Section Model.
Context `{Extern}.

(** Go's [error].  The package makes its own errors with [fmt.Errorf]; such
    a value is kept as the format and its arguments.  Every other error is
    a value of the native side: Go compares errors by identity, and the
    native side cannot make one of the values this package allocates. *)
Inductive error : Type :=
| Errorf (format : string) (a : list string)
| ForeignError (e : NErr).

(** An error of the native side, as the [error] the package passes on. *)
Definition foreign {A} (r : result NErr A) : result error A :=
  match r with
  | Ok v => Ok v
  | Err e => Err (ForeignError e)
  end.

(** [var ErrDown = fmt.Errorf("database is down")] *)
Definition ErrDown : error := Errorf "database is down" [].

(** [var ErrContext = fmt.Errorf("context operations are not supported")] *)
Definition ErrContext : error := Errorf "context operations are not supported" [].

(** A native connection: the method set of [driver.Conn], and [BeginTx]
    when its dynamic type also implements [driver.ConnBeginTx]. *)
Record driver_Conn : Type := {
  c_Prepare : string → NW → result NErr Stmt * NW;
  c_Close : NW → option NErr * NW;
  c_Begin : NW → result NErr Tx * NW;
  c_BeginTx : option (context_Context → TxOptions → NW → result NErr Tx * NW);
}.

(** The functions of [database/sql], of [strconv] and of the native driver
    that the code calls. *)
Class Native := {
  (* sql.Open(driverName, dataSourceName) *)
  sql_Open : string → string → NW → result NErr DB * NW;
  (* db.Driver().Open(name) *)
  DB_Driver_Open : DB → string → NW → result NErr driver_Conn * NW;
  (* strconv.Quote, the %q verb of fmt *)
  strconv_Quote : string → string;
  (* the Error method of a foreign error *)
  NErr_Error : NErr → string;
}.
Context `{Native}.

(** [fmt.Sprintf] for the verbs the package uses: [%q] takes the next
    argument quoted, every other character is copied. *)
Fixpoint Sprintf (format : string) (a : list string) : string :=
  match format with
  | String "%"%char (String "q"%char rest) =>
      match a with
      | x :: a' => strconv_Quote x +:+ Sprintf rest a'
      | [] => "%!q(MISSING)" +:+ Sprintf rest []
      end
  | String ch rest => String ch (Sprintf rest a)
  | EmptyString => EmptyString
  end.

(** The [Error] method: the message an error carries. *)
Definition Error (e : error) : string :=
  match e with
  | Errorf format a => Sprintf format a
  | ForeignError e => NErr_Error e
  end.

(** ** The world *)

Definition ptr := nat.

(** [type Breaker struct { down bool; native string; dbs map[string]*sql.DB }] *)
Record Breaker : Type := {
  Breaker_down : bool;
  Breaker_native : string;
  Breaker_dbs : gmap string DB;
}.

(** What [database/sql] keeps under a registered name: a driver of another
    package, or a [*Breaker]. *)
Inductive Driver : Type :=
| NativeDriver
| BreakerDriver (w : ptr).

(** The calls that leave the package, in the order they were made. *)
Inductive Call : Type :=
| Call_sql_Open (driverName name : string) (r : result error DB)
| Call_Driver_Open (db : DB) (name : string)
| Call_Prepare (query : string)
| Call_Close
| Call_Begin
| Call_BeginTx (ctx : context_Context) (opts : TxOptions).

Record World : Type := {
  drivers : gmap string Driver;   (* the registry of database/sql *)
  heap : list Breaker;            (* the allocated Breakers, by address *)
  native_state : NW;
  log : list Call;
}.

Definition set_drivers (f : gmap string Driver → gmap string Driver) (σ : World) : World :=
  {| drivers := f (drivers σ); heap := heap σ;
     native_state := native_state σ; log := log σ |}.

Definition set_heap (f : list Breaker → list Breaker) (σ : World) : World :=
  {| drivers := drivers σ; heap := f (heap σ);
     native_state := native_state σ; log := log σ |}.

Definition set_down (off : bool) (bk : Breaker) : Breaker :=
  {| Breaker_down := off; Breaker_native := Breaker_native bk;
     Breaker_dbs := Breaker_dbs bk |}.

Definition set_dbs (f : gmap string DB → gmap string DB) (bk : Breaker) : Breaker :=
  {| Breaker_down := Breaker_down bk; Breaker_native := Breaker_native bk;
     Breaker_dbs := f (Breaker_dbs bk) |}.

(** ** The monad: state over [World], [None] for a panic *)

Definition M (A : Type) : Type := World → option (A * World).

#[global] Instance M_ret : MRet M := λ A v σ, Some (v, σ).

#[global] Instance M_bind : MBind M :=
  λ A B k m σ, match m σ with
               | Some (v, σ') => k v σ'
               | None => None
               end.

(** [*w]: a nil or dangling address panics. *)
Definition load (w : ptr) : M Breaker :=
  λ σ, match heap σ !! w with
       | Some bk => Some (bk, σ)
       | None => None
       end.

(** Assignment through [w]. *)
Definition store (w : ptr) (f : Breaker → Breaker) : M unit :=
  λ σ, match heap σ !! w with
       | Some bk => Some (tt, set_heap (λ h, <[w := f bk]> h) σ)
       | None => None
       end.

(** [&Breaker{...}]: a fresh address. *)
Definition alloc (bk : Breaker) : M ptr :=
  λ σ, Some (length (heap σ), set_heap (λ h, h ++ [bk]) σ).

(** A call out of the package: the native side moves on and the call is
    logged. *)
Definition called (σ : World) (n : NW) (ev : Call) : World :=
  {| drivers := drivers σ; heap := heap σ;
     native_state := n; log := log σ ++ [ev] |}.

Definition extern {A B} (conv : A → B) (ev : B → Call) (f : NW → A * NW) : M B :=
  λ σ, let r := f (native_state σ) in
       Some (conv r.1, called σ r.2 (ev (conv r.1))).

(** [sql.Drivers()]: the registered names.  Go returns them sorted; the
    only use below is a membership loop. *)
Definition sql_Drivers : M (list string) :=
  λ σ, Some ((map_to_list (drivers σ)).*1, σ).

(** [sql.Register(name, driver)]: panics when the name is taken. *)
Definition sql_Register (name : string) (d : Driver) : M unit :=
  λ σ, match drivers σ !! name with
       | Some _ => None
       | None => Some (tt, set_drivers (λ m, <[name := d]> m) σ)
       end.

(** ** The package *)

(** [type Conn struct { c driver.Conn; b driver.ConnBeginTx; db *sql.DB;
    down func() bool }].  [b] is nil when the native connection has no
    [BeginTx]; [down] is a closure, run against the world of the moment. *)
Record Conn : Type := {
  Conn_c : driver_Conn;
  Conn_b : option (context_Context → TxOptions → NW → result NErr Tx * NW);
  Conn_db : option DB;
  Conn_down : M bool;
}.

(** The loop of [NewDriver]: [for _, d := range sql.Drivers() { if d == name ... }] *)
Fixpoint registered (name : string) (ds : list string) : bool :=
  match ds with
  | [] => false
  | d :: ds' => if String.eqb d name then true else registered name ds'
  end.

Definition NewDriver (name native : string) : M (result error ptr) :=
  ds ← sql_Drivers;
  if registered name ds
  then mret (Err (Errorf "driver %q is already registered" [name]))
  else
    drv ← alloc {| Breaker_down := false; Breaker_native := native;
                   Breaker_dbs := ∅ |};
    sql_Register name (BreakerDriver drv);;
    mret (Ok drv).

(** [func (w *Breaker) Disable(off bool) { w.down = off }] *)
Definition Breaker_Disable (w : ptr) (off : bool) : M unit :=
  store w (set_down off).

(** The closure [func() bool { return w.down }] made in [Open]. *)
Definition down_closure (w : ptr) : M bool :=
  bk ← load w; mret (Breaker_down bk).

(** Lines 67 to 75 of [Open], after the gate: the cached handle for
    [name], or a new one from [sql.Open], cached when that succeeds. *)
Definition Breaker_Open_db (w : ptr) (name : string) : M (result error DB) :=
  bk ← load w;
  match Breaker_dbs bk !! name with
  | Some db => mret (Ok db)
  | None =>
      r ← extern foreign (Call_sql_Open (Breaker_native bk) name)
                 (sql_Open (Breaker_native bk) name);
      match r with
      | Err err => mret (Err err)
      | Ok db => store w (set_dbs (λ m, <[name := db]> m));; mret (Ok db)
      end
  end.

Definition Breaker_Open (w : ptr) (name : string) : M (result error Conn) :=
  bk ← load w;
  if Breaker_down bk then mret (Err ErrDown)
  else
    r ← Breaker_Open_db w name;
    match r with
    | Err err => mret (Err err)
    | Ok db =>
        r ← extern foreign (λ _, Call_Driver_Open db name)
                   (DB_Driver_Open db name);
        match r with
        | Err err => mret (Err err)
        | Ok c =>
            mret (Ok {| Conn_b := c_BeginTx c; Conn_c := c; Conn_db := None;
                       Conn_down := down_closure w |})
        end
    end.

Definition Conn_Prepare (c : Conn) (query : string) : M (result error Stmt) :=
  d ← Conn_down c;
  if (d : bool) then mret (Err ErrDown)
  else extern foreign (λ _, Call_Prepare query) (c_Prepare (Conn_c c) query).

Definition Conn_Close (c : Conn) : M (option error) :=
  extern (fmap ForeignError) (λ _, Call_Close) (c_Close (Conn_c c)).

Definition Conn_Begin (c : Conn) : M (result error Tx) :=
  d ← Conn_down c;
  if (d : bool) then mret (Err ErrDown)
  else extern foreign (λ _, Call_Begin) (c_Begin (Conn_c c)).

Definition Conn_BeginTx (c : Conn) (ctx : context_Context) (opts : TxOptions) : M (result error Tx) :=
  d ← Conn_down c;
  if (d : bool) then mret (Err ErrDown)
  else
    match Conn_b c with
    | None => mret (Err ErrContext)
    | Some b => extern foreign (λ _, Call_BeginTx ctx opts) (b ctx opts)
    end.

(** ** Runs of a process *)

(** [p] is a proxy of [w]: its [down] is the closure [w.Open] makes. *)
Definition proxy_of (w : ptr) (p : Conn) : Prop :=
  Conn_down p = down_closure w.

(** One call into the package by the application: on the Breaker [w], on
    one of its proxies, or a registration. *)
Inductive step (w : ptr) (σ σ' : World) : Prop :=
| step_Disable off :
    Breaker_Disable w off σ = Some (tt, σ') → step w σ σ'
| step_Open name r :
    Breaker_Open w name σ = Some (r, σ') → step w σ σ'
| step_Prepare p query r :
    proxy_of w p → Conn_Prepare p query σ = Some (r, σ') → step w σ σ'
| step_Close p r :
    proxy_of w p → Conn_Close p σ = Some (r, σ') → step w σ σ'
| step_Begin p r :
    proxy_of w p → Conn_Begin p σ = Some (r, σ') → step w σ σ'
| step_BeginTx p ctx opts r :
    proxy_of w p → Conn_BeginTx p ctx opts σ = Some (r, σ') → step w σ σ'
| step_NewDriver name native r :
    NewDriver name native σ = Some (r, σ') → step w σ σ'.

(** [w] holds the pool handle [db] for [name]. *)
Definition cached (w : ptr) (name : string) (db : DB) (σ : World) : Prop :=
  ∃ bk, heap σ !! w = Some bk ∧ Breaker_dbs bk !! name = Some db.

(** The logged call is an [sql.Open] for [name]. *)
Definition opens_pool (name : string) (ev : Call) : bool :=
  match ev with
  | Call_sql_Open _ n _ => String.eqb n name
  | _ => false
  end.

(** The logged call is an [sql.Open] for [name] that made a handle. *)
Definition creates_pool (name : string) (ev : Call) : bool :=
  match ev with
  | Call_sql_Open _ n (Ok _) => String.eqb n name
  | _ => false
  end.

(** What one step adds to the log and does to the cache of [w]: handles are
    kept; a connection for [name] is asked of the handle cached for [name];
    no [sql.Open] for a name that has a handle; and at most one handle is
    made for a name, which is then cached. *)
Definition effect (w : ptr) (σ σ' : World) (l : list Call) : Prop :=
  log σ' = log σ ++ l ∧
  (∀ name db, cached w name db σ → cached w name db σ') ∧
  (∀ name db, Call_Driver_Open db name ∈ l → cached w name db σ') ∧
  (∀ name db, cached w name db σ → List.filter (opens_pool name) l = []) ∧
  (∀ name, List.filter (creates_pool name) l = [] ∨
           (length (List.filter (creates_pool name) l) = 1 ∧
            ∃ db, cached w name db σ')).

(** One call into the package on any Breaker or proxy. *)
Definition anystep (σ σ' : World) : Prop := ∃ w, step w σ σ'.

(** [σ'] keeps what [σ] has: every registration, and every Breaker with its
    native driver name and all the handles of its cache. *)
Definition extends (σ σ' : World) : Prop :=
  (∀ name d, drivers σ !! name = Some d → drivers σ' !! name = Some d) ∧
  (∀ w bk, heap σ !! w = Some bk →
     ∃ bk', heap σ' !! w = Some bk' ∧
            Breaker_native bk' = Breaker_native bk ∧
            Breaker_dbs bk ⊆ Breaker_dbs bk').

End Model.

(** ** A small native side to run the code on

    One instance of the two classes: a driver named [sqlite3] whose pool
    handle is the data-source name, whose connections count the calls made
    on them, and whose connections to [legacy.db] have no [BeginTx]. *)
Module Toy.

#[export] Instance types : Extern := {|
  NW := nat; DB := string; Stmt := string; Tx := nat;
  context_Context := unit; TxOptions := bool; NErr := string |}.

Definition conn (name : string) : driver_Conn := {|
  c_Prepare := λ query n, (Ok query, S n);
  c_Close := λ n, (None, S n);
  c_Begin := λ n, (Ok n, S n);
  c_BeginTx := if String.eqb name "legacy.db" then None
               else Some (λ _ _ n, (Ok n, S n)) |}.

#[export] Instance native : Native := {|
  sql_Open := λ driverName name n,
    if String.eqb driverName "sqlite3" then (Ok name, S n)
    else (Err "sql: unknown driver", n);
  DB_Driver_Open := λ db name n,
    if String.eqb name "" then (Err "unable to open database file", S n)
    else (Ok (conn name), S n);
  strconv_Quote := λ s, String (ascii_of_nat 34) (s +:+ String (ascii_of_nat 34) EmptyString);
  NErr_Error := λ e, e |}.

(** A process that has imported the native driver and made no Breaker. *)
Definition start : World := {|
  drivers := {[ "sqlite3" := NativeDriver ]}; heap := [];
  native_state := 0; log := [] |}.

(** The world after [NewDriver("wrapper", "sqlite3")]. *)
Definition wrapped : World := {|
  drivers := <[ "wrapper" := BreakerDriver 0 ]> {[ "sqlite3" := NativeDriver ]};
  heap := [ {| Breaker_down := false; Breaker_native := "sqlite3"; Breaker_dbs := ∅ |} ];
  native_state := 0; log := [] |}.

(** The proxy [Open] makes for [name] on the Breaker at address 0. *)
Definition proxy (name : string) : Conn := {|
  Conn_c := conn name; Conn_b := c_BeginTx (conn name);
  Conn_db := None; Conn_down := down_closure 0 |}.

(** The world after [Open(name)] on [wrapped]: one handle cached, one
    connection taken. *)
Definition opened (name : string) (off : bool) : World := {|
  drivers := <[ "wrapper" := BreakerDriver 0 ]> {[ "sqlite3" := NativeDriver ]};
  heap := [ {| Breaker_down := off; Breaker_native := "sqlite3";
               Breaker_dbs := {[ name := name ]} |} ];
  native_state := 2;
  log := [ Call_sql_Open "sqlite3" name (Ok name); Call_Driver_Open name name ] |}.

(** The world inside that [Open], after [sql.Open] and before the
    connection is taken. *)
Definition pooled (name : string) : World := {|
  drivers := <[ "wrapper" := BreakerDriver 0 ]> {[ "sqlite3" := NativeDriver ]};
  heap := [ {| Breaker_down := false; Breaker_native := "sqlite3";
               Breaker_dbs := {[ name := name ]} |} ];
  native_state := 1;
  log := [ Call_sql_Open "sqlite3" name (Ok name) ] |}.

(** A Breaker over a driver that was never registered. *)
Definition orphan : World := {|
  drivers := <[ "wrapper" := BreakerDriver 0 ]> {[ "sqlite3" := NativeDriver ]};
  heap := [ {| Breaker_down := false; Breaker_native := "postgres"; Breaker_dbs := ∅ |} ];
  native_state := 0; log := [] |}.

(** The world after a second [Open("test.db")]: one more connection taken
    of the same handle. *)
Definition twice : World :=
  called (opened "test.db" false) 3 (Call_Driver_Open "test.db" "test.db").

(** The world after a second registration, [NewDriver("second", "sqlite3")]
    on [wrapped]: two Breakers. *)
Definition second : World := {|
  drivers := <[ "second" := BreakerDriver 1 ]>
               (<[ "wrapper" := BreakerDriver 0 ]> {[ "sqlite3" := NativeDriver ]});
  heap := [ {| Breaker_down := false; Breaker_native := "sqlite3"; Breaker_dbs := ∅ |};
            {| Breaker_down := false; Breaker_native := "sqlite3"; Breaker_dbs := ∅ |} ];
  native_state := 0; log := [] |}.

(** The scenario of the package's test, at the level of the driver:
    register, open, prepare; disable and prepare; enable and prepare, all on
    the one connection. *)
Definition TestBreaker : M (list (result error Stmt)) :=
  r ← NewDriver "wrapper" "sqlite3";
  match r with
  | Err err => mret [Err err]
  | Ok breaker =>
      r ← Breaker_Open breaker "test.db";
      match r with
      | Err err => mret [Err err]
      | Ok c =>
          r1 ← Conn_Prepare c "insert";
          Breaker_Disable breaker true;;
          r2 ← Conn_Prepare c "insert";
          Breaker_Disable breaker false;;
          r3 ← Conn_Prepare c "insert";
          mret [r1; r2; r3]
      end
  end.

End Toy.

(** * Properties *)

Section Properties.
Context `{Native}.

(** ** Stepping through the monad *)

Lemma bind_Some {A B} (m : M A) (k : A → M B) σ v σ' :
  m σ = Some (v, σ') → (m ≫= k) σ = k v σ'.
Proof. intros Hm. unfold mbind, M_bind. by rewrite Hm. Qed.

Lemma bind_inv {A B} (m : M A) (k : A → M B) σ r :
  (m ≫= k) σ = Some r → ∃ v σ', m σ = Some (v, σ') ∧ k v σ' = Some r.
Proof.
  unfold mbind, M_bind. destruct (m σ) as [[v σ']|] eqn:Hm; [|done].
  intros Hk. by exists v, σ'.
Qed.

Lemma load_Some w σ bk : heap σ !! w = Some bk → load w σ = Some (bk, σ).
Proof. intros Hw. unfold load. by rewrite Hw. Qed.

Lemma load_inv w σ bk σ' :
  load w σ = Some (bk, σ') → heap σ !! w = Some bk ∧ σ' = σ.
Proof. unfold load. destruct (heap σ !! w); naive_solver. Qed.

Lemma store_Some w f σ bk :
  heap σ !! w = Some bk →
  store w f σ = Some (tt, set_heap (λ h, <[w := f bk]> h) σ).
Proof. intros Hw. unfold store. by rewrite Hw. Qed.

Lemma down_closure_Some w σ bk :
  heap σ !! w = Some bk → down_closure w σ = Some (Breaker_down bk, σ).
Proof.
  intros Hw. unfold down_closure. by rewrite (bind_Some _ _ _ _ _ (load_Some _ _ _ Hw)).
Qed.

(** [Disable] writes the flag and nothing else. *)
Lemma Disable_Some w off σ bk :
  heap σ !! w = Some bk →
  Breaker_Disable w off σ = Some (tt, set_heap (λ h, <[w := set_down off bk]> h) σ).
Proof. apply store_Some. Qed.

Lemma Disable_inv w off σ σ' :
  Breaker_Disable w off σ = Some (tt, σ') →
  ∃ bk, heap σ !! w = Some bk ∧ heap σ' !! w = Some (set_down off bk) ∧
        σ' = set_heap (λ h, <[w := set_down off bk]> h) σ.
Proof.
  unfold Breaker_Disable, store. destruct (heap σ !! w) as [bk|] eqn:Hw; [|done].
  intros [= <-]. exists bk. split_and!; [done| |done].
  simpl. apply list_lookup_insert_eq. by eapply lookup_lt_Some.
Qed.

(** What [Open] hands out: the native connection, its [BeginTx] if it has
    one, no [db], and the closure over [w]. *)
Lemma Open_proxy w name σ p σ' :
  Breaker_Open w name σ = Some (Ok p, σ') →
  proxy_of w p ∧ Conn_b p = c_BeginTx (Conn_c p) ∧ Conn_db p = None.
Proof.
  unfold Breaker_Open. intros Ho.
  apply bind_inv in Ho as (bk & σ1 & _ & Ho).
  destruct (Breaker_down bk); [done|].
  apply bind_inv in Ho as (r & σ2 & _ & Ho).
  destruct r as [db|err]; [|done].
  apply bind_inv in Ho as (r & σ3 & _ & Ho).
  destruct r as [c|err]; [|done].
  by injection Ho as <- <-.
Qed.

(** A gated call on a proxy of [w] reads [w.down] in the world of the call. *)
Lemma Prepare_gate w p query σ bk :
  proxy_of w p → heap σ !! w = Some bk →
  Conn_Prepare p query σ =
    if Breaker_down bk then Some (Err ErrDown, σ)
    else extern foreign (λ _, Call_Prepare query) (c_Prepare (Conn_c p) query) σ.
Proof.
  intros Hp Hw. unfold Conn_Prepare. rewrite Hp.
  rewrite (bind_Some _ _ _ _ _ (down_closure_Some _ _ _ Hw)).
  by destruct (Breaker_down bk).
Qed.

Lemma Begin_gate w p σ bk :
  proxy_of w p → heap σ !! w = Some bk →
  Conn_Begin p σ =
    if Breaker_down bk then Some (Err ErrDown, σ)
    else extern foreign (λ _, Call_Begin) (c_Begin (Conn_c p)) σ.
Proof.
  intros Hp Hw. unfold Conn_Begin. rewrite Hp.
  rewrite (bind_Some _ _ _ _ _ (down_closure_Some _ _ _ Hw)).
  by destruct (Breaker_down bk).
Qed.

Lemma BeginTx_gate w p ctx opts σ bk :
  proxy_of w p → heap σ !! w = Some bk →
  Conn_BeginTx p ctx opts σ =
    if Breaker_down bk then Some (Err ErrDown, σ)
    else match Conn_b p with
         | None => Some (Err ErrContext, σ)
         | Some b => extern foreign (λ _, Call_BeginTx ctx opts) (b ctx opts) σ
         end.
Proof.
  intros Hp Hw. unfold Conn_BeginTx. rewrite Hp.
  rewrite (bind_Some _ _ _ _ _ (down_closure_Some _ _ _ Hw)).
  destruct (Breaker_down bk); [done|]. by destruct (Conn_b p).
Qed.

(** ** What [Open] does, case by case *)

Lemma Open_db_inv w name σ r σ' :
  Breaker_Open_db w name σ = Some (r, σ') →
  ∃ bk, heap σ !! w = Some bk ∧
    ((∃ db, Breaker_dbs bk !! name = Some db ∧ r = Ok db ∧ σ' = σ) ∨
     (Breaker_dbs bk !! name = None ∧
      ∃ s n, sql_Open (Breaker_native bk) name (native_state σ) = (s, n) ∧
        r = foreign s ∧
        match s with
        | Err e =>
            σ' = called σ n (Call_sql_Open (Breaker_native bk) name (foreign s))
        | Ok db =>
            σ' = set_heap (λ h, <[w := set_dbs (λ m, <[name := db]> m) bk]> h)
                   (called σ n (Call_sql_Open (Breaker_native bk) name (foreign s)))
        end)).
Proof.
  unfold Breaker_Open_db. intros Ho.
  apply bind_inv in Ho as (bk & σ1 & [Hw ->]%load_inv & Ho).
  exists bk. split; [done|].
  destruct (Breaker_dbs bk !! name) as [db|] eqn:Hc.
  - left. exists db. by injection Ho as <- <-.
  - right. split; [done|].
    apply bind_inv in Ho as (r1 & σ2 & Hx & Ho).
    unfold extern in Hx.
    destruct (sql_Open (Breaker_native bk) name (native_state σ)) as [s n] eqn:Hs.
    injection Hx as <- <-. exists s, n. split; [done|].
    destruct s as [db|e]; simpl in *.
    + apply bind_inv in Ho as ([] & σ3 & Hst & Ho).
      rewrite (store_Some _ _ _ bk) in Hst by done.
      injection Hst as <-. by injection Ho as <- <-.
    + by injection Ho as <- <-.
Qed.

Lemma Open_inv w name σ r σ' :
  Breaker_Open w name σ = Some (r, σ') →
  ∃ bk, heap σ !! w = Some bk ∧
    ((Breaker_down bk = true ∧ r = Err ErrDown ∧ σ' = σ) ∨
     (Breaker_down bk = false ∧
      ∃ rdb σ1, Breaker_Open_db w name σ = Some (rdb, σ1) ∧
        match rdb with
        | Err e => r = Err e ∧ σ' = σ1
        | Ok db =>
            ∃ rc n, DB_Driver_Open db name (native_state σ1) = (rc, n) ∧
              σ' = called σ1 n (Call_Driver_Open db name) ∧
              match rc with
              | Err e => r = Err (ForeignError e)
              | Ok c => r = Ok {| Conn_b := c_BeginTx c; Conn_c := c;
                                  Conn_db := None; Conn_down := down_closure w |}
              end
        end)).
Proof.
  unfold Breaker_Open. intros Ho.
  apply bind_inv in Ho as (bk & σ1 & [Hw ->]%load_inv & Ho).
  exists bk. split; [done|].
  destruct (Breaker_down bk); [left; by injection Ho as <- <-|right].
  split; [done|].
  apply bind_inv in Ho as (rdb & σ1 & Hdb & Ho).
  exists rdb, σ1. split; [done|].
  destruct rdb as [db|e]; [|by injection Ho as <- <-].
  apply bind_inv in Ho as (r1 & σ2 & Hx & Ho).
  unfold extern in Hx.
  destruct (DB_Driver_Open db name (native_state σ1)) as [rc n] eqn:Hc.
  injection Hx as <- <-. exists rc, n. split; [done|].
  destruct rc as [c|e]; simpl in *; by injection Ho as <- <-.
Qed.

(** ** The gate is read at every call *)

(** C1: a proxy handed out by an enabled [Open] reads the Breaker's [down]
    flag in the world of each [Prepare], [Begin] and [BeginTx], not the
    value it had when the proxy was made.  Whatever was done since the
    proxy was made, after [Disable(true)] the three calls on that same
    proxy return [ErrDown] and leave the world as it is, and after
    [Disable(false)] they go to the native connection again. *)
Theorem gate_read_at_call w name σ0 σ1 p σ bk query ctx opts :
  Breaker_Open w name σ0 = Some (Ok p, σ1) →
  heap σ !! w = Some bk →
  (Conn_Prepare p query σ =
     if Breaker_down bk then Some (Err ErrDown, σ)
     else extern foreign (λ _, Call_Prepare query) (c_Prepare (Conn_c p) query) σ) ∧
  (Conn_Begin p σ =
     if Breaker_down bk then Some (Err ErrDown, σ)
     else extern foreign (λ _, Call_Begin) (c_Begin (Conn_c p)) σ) ∧
  (Conn_BeginTx p ctx opts σ =
     if Breaker_down bk then Some (Err ErrDown, σ)
     else match c_BeginTx (Conn_c p) with
          | None => Some (Err ErrContext, σ)
          | Some b => extern foreign (λ _, Call_BeginTx ctx opts) (b ctx opts) σ
          end) ∧
  ∀ off, ∃ σ',
    Breaker_Disable w off σ = Some (tt, σ') ∧
    (Conn_Prepare p query σ' =
       if off then Some (Err ErrDown, σ')
       else extern foreign (λ _, Call_Prepare query) (c_Prepare (Conn_c p) query) σ') ∧
    (Conn_Begin p σ' =
       if off then Some (Err ErrDown, σ')
       else extern foreign (λ _, Call_Begin) (c_Begin (Conn_c p)) σ') ∧
    (Conn_BeginTx p ctx opts σ' =
       if off then Some (Err ErrDown, σ')
       else match c_BeginTx (Conn_c p) with
            | None => Some (Err ErrContext, σ')
            | Some b => extern foreign (λ _, Call_BeginTx ctx opts) (b ctx opts) σ'
            end).
Proof.
  intros Ho Hw. apply Open_proxy in Ho as (Hp & Hb & _).
  split_and!.
  - by apply (Prepare_gate w).
  - by apply (Begin_gate w).
  - rewrite <- Hb. by apply (BeginTx_gate w).
  - intros off. eexists. split; [by apply Disable_Some|].
    assert (heap (set_heap (λ h, <[w := set_down off bk]> h) σ) !! w
            = Some (set_down off bk)) as Hw'.
    { simpl. apply list_lookup_insert_eq. by eapply lookup_lt_Some. }
    split_and!.
    + by rewrite (Prepare_gate _ _ _ _ _ Hp Hw').
    + by rewrite (Begin_gate _ _ _ _ Hp Hw').
    + rewrite <- Hb. by rewrite (BeginTx_gate _ _ _ _ _ _ Hp Hw').
Qed.

(** ** [Open] *)

(** C2: while the Breaker is disabled, [Open] of any name returns
    [ErrDown] and the world is the one before the call: the cache [dbs] is
    neither read into the result nor written, and the log gains no call, so
    neither [sql.Open] nor the native driver was reached. *)
Theorem Open_disabled w name σ bk :
  heap σ !! w = Some bk →
  Breaker_down bk = true →
  Breaker_Open w name σ = Some (Err ErrDown, σ).
Proof.
  intros Hw Hd. unfold Breaker_Open.
  rewrite (bind_Some _ _ _ _ _ (load_Some _ _ _ Hw)). by rewrite Hd.
Qed.

(** C7: with the Breaker enabled and no handle cached for [name], when
    [sql.Open] fails [Open] returns that very error; the heap, and with it
    the cache, is the one before the call, and the only call made is the
    failed [sql.Open]. *)
Theorem Open_sql_Open_fails w name σ bk e n :
  heap σ !! w = Some bk →
  Breaker_down bk = false →
  Breaker_dbs bk !! name = None →
  sql_Open (Breaker_native bk) name (native_state σ) = (Err e, n) →
  ∃ σ', Breaker_Open w name σ = Some (Err (ForeignError e), σ') ∧
        heap σ' = heap σ ∧
        drivers σ' = drivers σ ∧
        native_state σ' = n ∧
        log σ' = log σ ++ [Call_sql_Open (Breaker_native bk) name
                             (Err (ForeignError e))].
Proof.
  intros Hw Hd Hc Hs.
  exists (called σ n (Call_sql_Open (Breaker_native bk) name (Err (ForeignError e)))).
  split; [|done].
  unfold Breaker_Open.
  rewrite (bind_Some _ _ _ _ _ (load_Some _ _ _ Hw)), Hd.
  assert (Breaker_Open_db w name σ =
          Some (Err (ForeignError e),
                called σ n (Call_sql_Open (Breaker_native bk) name
                              (Err (ForeignError e))))) as Hdb.
  { unfold Breaker_Open_db.
    rewrite (bind_Some _ _ _ _ _ (load_Some _ _ _ Hw)), Hc.
    unfold mbind, M_bind, extern. by rewrite Hs. }
  by rewrite (bind_Some _ _ _ _ _ Hdb).
Qed.

(** ** The proxy *)

(** C4: [BeginTx] on a proxy made by [Open]: with the Breaker disabled it
    returns [ErrDown]; otherwise, when the native connection has no
    [BeginTx], it returns [ErrContext]; otherwise it calls the native
    [BeginTx] with the caller's [ctx] and [opts] and returns what that
    returns, value or error. *)
Theorem BeginTx_order w name σ0 σ1 p σ bk ctx opts :
  Breaker_Open w name σ0 = Some (Ok p, σ1) →
  heap σ !! w = Some bk →
  (Breaker_down bk = true →
     Conn_BeginTx p ctx opts σ = Some (Err ErrDown, σ)) ∧
  (Breaker_down bk = false → c_BeginTx (Conn_c p) = None →
     Conn_BeginTx p ctx opts σ = Some (Err ErrContext, σ)) ∧
  (∀ b, Breaker_down bk = false → c_BeginTx (Conn_c p) = Some b →
     Conn_BeginTx p ctx opts σ =
       Some (foreign (b ctx opts (native_state σ)).1,
             called σ (b ctx opts (native_state σ)).2 (Call_BeginTx ctx opts))).
Proof.
  intros Ho Hw. apply Open_proxy in Ho as (Hp & Hb & _).
  rewrite (BeginTx_gate _ _ ctx opts _ _ Hp Hw), Hb.
  split_and!.
  - by intros ->.
  - by intros -> ->.
  - by intros b -> ->.
Qed.

(** C5, as the code has it: on a proxy whose native connection has no
    [BeginTx], [BeginTx] returns [ErrContext] whenever the Breaker is
    enabled at the call, and [ErrDown] whenever it is disabled: the gate is
    tested first. *)
Theorem BeginTx_unsupported w name σ0 σ1 p σ bk ctx opts :
  Breaker_Open w name σ0 = Some (Ok p, σ1) →
  c_BeginTx (Conn_c p) = None →
  heap σ !! w = Some bk →
  Conn_BeginTx p ctx opts σ =
    Some (Err (if Breaker_down bk then ErrDown else ErrContext), σ).
Proof.
  intros Ho Hn Hw. apply Open_proxy in Ho as (Hp & Hb & _).
  rewrite (BeginTx_gate _ _ ctx opts _ _ Hp Hw), Hb, Hn.
  by destruct (Breaker_down bk).
Qed.

(** C6: [Close] on any proxy, in any world, calls the native [Close] and
    returns its result; the Breaker's flag is not read.  In particular the
    result after [Disable(true)] is the native one, and [Close] never
    returns [ErrDown]. *)
Theorem Close_not_gated p σ :
  Conn_Close p σ =
    Some (ForeignError <$> (c_Close (Conn_c p) (native_state σ)).1,
          called σ (c_Close (Conn_c p) (native_state σ)).2 Call_Close) ∧
  (∀ w off σ', Breaker_Disable w off σ = Some (tt, σ') →
     Conn_Close p σ' =
       Some (ForeignError <$> (c_Close (Conn_c p) (native_state σ)).1,
             called σ' (c_Close (Conn_c p) (native_state σ)).2 Call_Close)) ∧
  (∀ r σ', Conn_Close p σ = Some (r, σ') → r ≠ Some ErrDown).
Proof.
  split_and!.
  - done.
  - intros w off σ' (bk & _ & _ & ->)%Disable_inv. done.
  - intros r σ' [= <- _]. by destruct (c_Close _ _).1.
Qed.

(** ** Registration *)

Lemma registered_elem name ds : registered name ds = true ↔ name ∈ ds.
Proof.
  induction ds as [|d ds IH]; simpl.
  - split; [done|]. by intros ?%not_elem_of_nil.
  - rewrite elem_of_cons. destruct (String.eqb d name) eqn:Hd.
    + apply String.eqb_eq in Hd. split; [by left|done].
    + apply String.eqb_neq in Hd. rewrite IH. split; [by right|].
      by intros [->|].
Qed.

Lemma registered_lookup name (m : gmap string Driver) :
  registered name (map_to_list m).*1 = true ↔ is_Some (m !! name).
Proof.
  rewrite registered_elem, list_elem_of_fmap. split.
  - intros ([k d] & -> & Hin%elem_of_map_to_list). by exists d.
  - intros [d Hd]. exists (name, d). by rewrite elem_of_map_to_list.
Qed.

Lemma NewDriver_cases name native σ :
  (is_Some (drivers σ !! name) →
     NewDriver name native σ =
       Some (Err (Errorf "driver %q is already registered" [name]), σ)) ∧
  (drivers σ !! name = None →
     NewDriver name native σ =
       Some (Ok (length (heap σ)),
             {| drivers := <[name := BreakerDriver (length (heap σ))]> (drivers σ);
                heap := heap σ ++ [ {| Breaker_down := false;
                                       Breaker_native := native;
                                       Breaker_dbs := ∅ |} ];
                native_state := native_state σ;
                log := log σ |})).
Proof.
  split.
  - intros Hr%registered_lookup. unfold NewDriver, mbind, M_bind, sql_Drivers.
    by rewrite Hr.
  - intros Hn. unfold NewDriver, mbind, M_bind, sql_Drivers.
    destruct (registered name (map_to_list (drivers σ)).*1) eqn:Hr.
    + apply registered_lookup in Hr as [d Hd]. congruence.
    + unfold alloc, sql_Register. simpl. by rewrite Hn.
Qed.

(** C8: [NewDriver] fails exactly when [database/sql] already has a driver
    under [name], and then it changes nothing: no Breaker is made and
    nothing is registered.  Otherwise it makes a new Breaker at an address
    not in use, enabled, over [native] and with an empty [dbs], registers it
    under [name] and returns it; it does not panic. *)
Theorem NewDriver_registers name native σ :
  (is_Some (drivers σ !! name) →
     NewDriver name native σ =
       Some (Err (Errorf "driver %q is already registered" [name]), σ)) ∧
  (drivers σ !! name = None →
     NewDriver name native σ =
       Some (Ok (length (heap σ)),
             {| drivers := <[name := BreakerDriver (length (heap σ))]> (drivers σ);
                heap := heap σ ++ [ {| Breaker_down := false;
                                       Breaker_native := native;
                                       Breaker_dbs := ∅ |} ];
                native_state := native_state σ;
                log := log σ |})) ∧
  heap σ !! length (heap σ) = None ∧
  ((∃ e σ', NewDriver name native σ = Some (Err e, σ')) ↔
     is_Some (drivers σ !! name)).
Proof.
  destruct (NewDriver_cases name native σ) as [Hdup Hnew].
  split_and!; [done|done|by apply lookup_ge_None|]. split.
  - intros (e & σ' & He). destruct (drivers σ !! name) eqn:Hn; [done|].
    rewrite Hnew in He by done. done.
  - intros Hs. eexists _, _. by apply Hdup.
Qed.

(** ** The two errors of the package *)

(** C9, as the code has it: [ErrDown] carries the message
    [database is down] and [ErrContext] the message
    [context operations are not supported]; [ErrDown] is the error [Open],
    [Prepare], [Begin] and [BeginTx] return while the Breaker is disabled,
    and [ErrContext] is the error [BeginTx] returns, the Breaker enabled,
    when the native connection has no [BeginTx]. *)
Theorem sentinel_errors w name σ0 σ1 p σ bk query ctx opts :
  Breaker_Open w name σ0 = Some (Ok p, σ1) →
  heap σ !! w = Some bk →
  Error ErrDown = "database is down" ∧
  Error ErrContext = "context operations are not supported" ∧
  (Breaker_down bk = true →
     Breaker_Open w name σ = Some (Err ErrDown, σ) ∧
     Conn_Prepare p query σ = Some (Err ErrDown, σ) ∧
     Conn_Begin p σ = Some (Err ErrDown, σ) ∧
     Conn_BeginTx p ctx opts σ = Some (Err ErrDown, σ)) ∧
  (Breaker_down bk = false → c_BeginTx (Conn_c p) = None →
     Conn_BeginTx p ctx opts σ = Some (Err ErrContext, σ)).
Proof.
  intros Ho Hw. apply Open_proxy in Ho as (Hp & Hb & _).
  split_and!; [done|done| |].
  - intros Hd. split_and!.
    + unfold Breaker_Open.
      rewrite (bind_Some _ _ _ _ _ (load_Some _ _ _ Hw)). by rewrite Hd.
    + by rewrite (Prepare_gate _ _ _ _ _ Hp Hw), Hd.
    + by rewrite (Begin_gate _ _ _ _ Hp Hw), Hd.
    + by rewrite (BeginTx_gate _ _ _ _ _ _ Hp Hw), Hd.
  - intros Hd Hn. by rewrite (BeginTx_gate _ _ _ _ _ _ Hp Hw), Hd, Hb, Hn.
Qed.

(** C10: with the Breaker enabled, once the pool handle is there and the
    native driver has given a connection, [Open] succeeds also when that
    connection has no [BeginTx]: the proxy wraps it with [b] nil.  On that
    proxy [Prepare] and [Begin] go to the native connection whenever the
    Breaker is enabled and return [ErrDown] when it is disabled; neither
    they nor [Close] nor [Open] ever returns [ErrContext]. *)
Theorem Open_without_BeginTx w name σ bk db σ1 c n :
  heap σ !! w = Some bk →
  Breaker_down bk = false →
  Breaker_Open_db w name σ = Some (Ok db, σ1) →
  DB_Driver_Open db name (native_state σ1) = (Ok c, n) →
  c_BeginTx c = None →
  ∃ p, Breaker_Open w name σ = Some (Ok p, called σ1 n (Call_Driver_Open db name)) ∧
       Conn_c p = c ∧ Conn_b p = None ∧
       ∀ σ' bk', heap σ' !! w = Some bk' →
         (∀ query,
            Conn_Prepare p query σ' =
              if Breaker_down bk' then Some (Err ErrDown, σ')
              else Some (foreign (c_Prepare c query (native_state σ')).1,
                         called σ' (c_Prepare c query (native_state σ')).2
                           (Call_Prepare query))) ∧
         (Conn_Begin p σ' =
            if Breaker_down bk' then Some (Err ErrDown, σ')
            else Some (foreign (c_Begin c (native_state σ')).1,
                       called σ' (c_Begin c (native_state σ')).2 Call_Begin)) ∧
         (∀ query r σ'', Conn_Prepare p query σ' = Some (r, σ'') → r ≠ Err ErrContext) ∧
         (∀ r σ'', Conn_Begin p σ' = Some (r, σ'') → r ≠ Err ErrContext) ∧
         (∀ r σ'', Conn_Close p σ' = Some (r, σ'') → r ≠ Some ErrContext) ∧
         (∀ name' r σ'', Breaker_Open w name' σ' = Some (r, σ'') → r ≠ Err ErrContext).
Proof.
  intros Hw Hd Hdb Hc Hn.
  exists {| Conn_b := c_BeginTx c; Conn_c := c; Conn_db := None;
            Conn_down := down_closure w |}.
  split_and!; [|done|done|].
  { unfold Breaker_Open.
    rewrite (bind_Some _ _ _ _ _ (load_Some _ _ _ Hw)), Hd.
    rewrite (bind_Some _ _ _ _ _ Hdb).
    unfold mbind, M_bind, extern. by rewrite Hc. }
  intros σ' bk' Hw'.
  set (p := {| Conn_b := c_BeginTx c; Conn_c := c; Conn_db := None;
               Conn_down := down_closure w |}).
  assert (proxy_of w p) as Hp by done.
  split_and!.
  - intros query. by rewrite (Prepare_gate _ _ _ _ _ Hp Hw').
  - by rewrite (Begin_gate _ _ _ _ Hp Hw').
  - intros query r σ''. rewrite (Prepare_gate _ _ _ _ _ Hp Hw').
    destruct (Breaker_down bk'); [by intros [= <- _]|].
    intros [= <- _]. simpl. by destruct (c_Prepare c query (native_state σ')).1.
  - intros r σ''. rewrite (Begin_gate _ _ _ _ Hp Hw').
    destruct (Breaker_down bk'); [by intros [= <- _]|].
    intros [= <- _]. simpl. by destruct (c_Begin c (native_state σ')).1.
  - intros r σ'' [= <- _]. simpl. by destruct (c_Close c (native_state σ')).1.
  - intros name' r σ'' (bk2 & _ & [(_ & -> & _)|(_ & rdb & σ2 & Hdb' & Hr)])%Open_inv;
      [done|].
    destruct rdb as [db'|e].
    + destruct Hr as (rc & n' & _ & _ & Hr). destruct rc; by subst.
    + destruct Hr as [-> _].
      apply Open_db_inv in Hdb' as (bk3 & _ & [(? & _ & ? & _)|(_ & s & ? & _ & Hs & _)]);
        [done|]. destruct s; simpl in Hs; [done|]. by injection Hs as ->.
Qed.

(** ** One pool handle for each name *)

Lemma cached_agree w name db1 db2 σ :
  cached w name db1 σ → cached w name db2 σ → db1 = db2.
Proof. intros (bk & Hw & Hc) (bk' & Hw' & Hc'). congruence. Qed.

Lemma cached_heap w name db σ σ' :
  heap σ' = heap σ → cached w name db σ → cached w name db σ'.
Proof. unfold cached. by intros ->. Qed.

Lemma creates_opens name ev : creates_pool name ev = true → opens_pool name ev = true.
Proof. destruct ev as [d n [v|e]| | | | |]; simpl; congruence. Qed.

Lemma quiet_creates name l :
  List.filter (opens_pool name) l = [] → List.filter (creates_pool name) l = [].
Proof.
  induction l as [|ev l IH]; [done|]. simpl.
  destruct (creates_pool name ev) eqn:Hc.
  - by rewrite (creates_opens _ _ Hc).
  - destruct (opens_pool name ev); [done|]. exact IH.
Qed.

Lemma effect_refl w σ : effect w σ σ [].
Proof.
  split_and!; [by rewrite app_nil_r|done| |done|by left].
  by intros ?? ?%not_elem_of_nil.
Qed.

(** A call on a native connection touches neither cache nor pool. *)
Lemma effect_conn w σ n ev :
  (∀ name, opens_pool name ev = false) →
  (∀ db name, ev ≠ Call_Driver_Open db name) →
  effect w σ (called σ n ev) [ev].
Proof.
  intros Ho Hd. split_and!; [done|done| | |].
  - intros name db Hin%list_elem_of_singleton. by destruct (Hd db name).
  - intros name db _. simpl. by rewrite Ho.
  - intros name. left. apply quiet_creates. simpl. by rewrite Ho.
Qed.

Lemma effect_Disable w off σ σ' :
  Breaker_Disable w off σ = Some (tt, σ') → effect w σ σ' [].
Proof.
  intros (bk & Hw & Hw' & ->)%Disable_inv.
  split_and!; [by rewrite app_nil_r| | |done|by left].
  - intros name db (bk' & Hb & Hc). exists (set_down off bk).
    split; [done|]. simpl. congruence.
  - by intros ?? ?%not_elem_of_nil.
Qed.

Lemma effect_gated {A} w p (k : M (result error A)) σ r σ' ev :
  proxy_of w p →
  (∀ name, opens_pool name ev = false) →
  (∀ db name, ev ≠ Call_Driver_Open db name) →
  (∀ σ1, ∃ r1, k σ1 = Some (r1, σ1) ∨ ∃ n, k σ1 = Some (r1, called σ1 n ev)) →
  (d ← Conn_down p; if (d : bool) then mret (Err ErrDown) else k) σ = Some (r, σ') →
  ∃ l, effect w σ σ' l.
Proof.
  intros Hp Ho Hd Hk. rewrite Hp. unfold down_closure.
  intros (d & σ1 & (bk & σ2 & [_ ->]%load_inv & [= <- <-])%bind_inv & Hr)%bind_inv.
  destruct (Breaker_down bk).
  - injection Hr as _ <-. exists []. apply effect_refl.
  - destruct (Hk σ) as (r1 & [Hk1|[n1 Hk1]]); rewrite Hk1 in Hr; injection Hr as _ <-.
    + exists []. apply effect_refl.
    + exists [ev]. by apply effect_conn.
Qed.

Lemma effect_NewDriver w name native σ r σ' :
  NewDriver name native σ = Some (r, σ') → effect w σ σ' [].
Proof.
  intros Hn. destruct (NewDriver_cases name native σ) as [Hdup Hnew].
  assert (log σ' = log σ ∧ ∃ t, heap σ' = heap σ ++ t) as [Hl [t Ht]].
  { destruct (drivers σ !! name) eqn:Hd.
    - rewrite Hdup in Hn by done. injection Hn as _ <-. split; [done|].
      exists []. by rewrite app_nil_r.
    - rewrite Hnew in Hn by done. injection Hn as _ <-. split; [done|].
      by eexists. }
  split_and!; [by rewrite app_nil_r| | |done|by left].
  - intros n db (bk & Hw & Hc). exists bk. split; [|done].
    rewrite Ht, lookup_app_l; [done|]. by eapply lookup_lt_Some.
  - by intros ?? ?%not_elem_of_nil.
Qed.

Lemma cached_insert w name db bk σ :
  heap σ !! w = Some bk →
  cached w name db (set_heap (λ h, <[w := set_dbs (λ m, <[name := db]> m) bk]> h) σ).
Proof.
  intros Hw. eexists. split.
  - simpl. apply list_lookup_insert_eq. by eapply lookup_lt_Some.
  - simpl. apply lookup_insert_eq.
Qed.

Lemma cached_insert_keep w name db bk σ name' db' :
  heap σ !! w = Some bk →
  Breaker_dbs bk !! name = None →
  cached w name' db' σ →
  cached w name' db' (set_heap (λ h, <[w := set_dbs (λ m, <[name := db]> m) bk]> h) σ).
Proof.
  intros Hw Hn (bk' & Hw' & Hc). eexists. split.
  - simpl. apply list_lookup_insert_eq. by eapply lookup_lt_Some.
  - simpl. rewrite lookup_insert_ne; congruence.
Qed.

(** The log of one [Open]: the connection is asked of the cached handle,
    after an [sql.Open] only when no handle was cached. *)
Lemma Open_log w name σ r σ' :
  Breaker_Open w name σ = Some (r, σ') →
  ∃ bk, heap σ !! w = Some bk ∧
    ((Breaker_down bk = true ∧ r = Err ErrDown ∧ σ' = σ) ∨
     (Breaker_down bk = false ∧ ∃ db, Breaker_dbs bk !! name = Some db ∧
        heap σ' = heap σ ∧ log σ' = log σ ++ [Call_Driver_Open db name]) ∨
     (Breaker_down bk = false ∧ Breaker_dbs bk !! name = None ∧ ∃ e,
        r = Err (ForeignError e) ∧ heap σ' = heap σ ∧
        log σ' = log σ ++ [Call_sql_Open (Breaker_native bk) name
                             (Err (ForeignError e))]) ∨
     (Breaker_down bk = false ∧ Breaker_dbs bk !! name = None ∧ ∃ db,
        heap σ' = <[w := set_dbs (λ m, <[name := db]> m) bk]> (heap σ) ∧
        log σ' = log σ ++ [Call_sql_Open (Breaker_native bk) name (Ok db);
                           Call_Driver_Open db name])).
Proof.
  intros (bk & Hw & [?|(Hd & rdb & σ1 & Hdb & Hr)])%Open_inv; exists bk;
    (split; [done|]); [by left|right].
  apply Open_db_inv in Hdb as (bk' & Hw' & Hdb).
  assert (bk' = bk) as -> by congruence.
  destruct Hdb as [(db & Hc & -> & ->)|(Hc & s & n & Hs & -> & Hσ)].
  - left. split; [done|]. exists db. split; [done|].
    destruct Hr as (rc & n & _ & -> & _). done.
  - right. destruct s as [db|e]; simpl in Hr.
    + right. split_and!; [done..|]. exists db.
      destruct Hr as (rc & n' & _ & -> & _). subst σ1. simpl.
      by rewrite <- app_assoc.
    + left. split_and!; [done..|]. exists e.
      destruct Hr as [-> ->]. by subst σ1.
Qed.

Lemma effect_Open w name σ r σ' :
  Breaker_Open w name σ = Some (r, σ') → ∃ l, effect w σ σ' l.
Proof.
  intros (bk & Hw & [(_ & _ & ->)|[(_ & db & Hc & Hh & Hl)|
    [(_ & Hc & e & _ & Hh & Hl)|(_ & Hc & db & Hh & Hl)]]])%Open_log.
  - exists []. apply effect_refl.
  - eexists. split_and!; [exact Hl| | | |by left].
    + intros ??. by apply cached_heap.
    + intros n' db' [= -> ->]%list_elem_of_singleton.
      apply (cached_heap _ _ _ σ); [done|]. by exists bk.
    + done.
  - eexists. split_and!; [exact Hl| | | |by left].
    + intros ??. by apply cached_heap.
    + by intros n' db' [=]%list_elem_of_singleton.
    + intros n' db' (bk' & Hw' & Hc'). simpl.
      destruct (String.eqb name n') eqn:Hn; [|done].
      apply String.eqb_eq in Hn as <-. congruence.
  - assert (∀ n' db', cached w n' db' σ → cached w n' db' σ') as Hkeep.
    { intros n' db' Hc'.
      destruct (cached_insert_keep w name db bk σ n' db' Hw Hc Hc') as (b & Hb & Hb').
      exists b. by rewrite Hh. }
    assert (cached w name db σ') as Hnew.
    { destruct (cached_insert w name db bk σ Hw) as (b & Hb & Hb').
      exists b. by rewrite Hh. }
    eexists. split_and!; [exact Hl|done| | |].
    + intros n' db' [[=]|[= -> ->]%list_elem_of_singleton]%elem_of_cons. done.
    + intros n' db' (bk' & Hw' & Hc'). simpl.
      destruct (String.eqb name n') eqn:Hn; [|done].
      apply String.eqb_eq in Hn as <-. congruence.
    + intros n'. simpl. destruct (String.eqb name n') eqn:Hn; [|by left].
      apply String.eqb_eq in Hn as <-. right. split; [done|]. by exists db.
Qed.

Lemma effect_step w σ σ' : step w σ σ' → ∃ l, effect w σ σ' l.
Proof.
  intros [off Hs|name r Hs|p query r Hp Hs|p r Hp Hs|p r Hp Hs
         |p ctx opts r Hp Hs|name native r Hs].
  - exists []. by eapply effect_Disable.
  - by eapply effect_Open.
  - eapply (effect_gated w p _ σ r σ' (Call_Prepare query)); [done|done|done| |exact Hs].
    intros σ1. eexists. right. eexists. reflexivity.
  - injection Hs as _ <-. eexists. by apply effect_conn.
  - eapply (effect_gated w p _ σ r σ' Call_Begin); [done|done|done| |exact Hs].
    intros σ1. eexists. right. eexists. reflexivity.
  - eapply (effect_gated w p _ σ r σ' (Call_BeginTx ctx opts)); [done|done|done| |exact Hs].
    intros σ1. destruct (Conn_b p) as [b|].
    + eexists. right. eexists. reflexivity.
    + eexists. left. reflexivity.
  - exists []. by eapply effect_NewDriver.
Qed.

Lemma effect_trans w σ0 σ1 σ2 l1 l2 :
  effect w σ0 σ1 l1 → effect w σ1 σ2 l2 → effect w σ0 σ2 (l1 ++ l2).
Proof.
  intros (Hl1 & Hk1 & Hd1 & Hq1 & Hc1) (Hl2 & Hk2 & Hd2 & Hq2 & Hc2).
  split_and!.
  - by rewrite Hl2, Hl1, app_assoc.
  - intros name db Hc. by apply Hk2, Hk1.
  - intros name db [Hin|Hin]%elem_of_app; [by apply Hk2, Hd1|by apply Hd2].
  - intros name db Hc. rewrite List.filter_app, (Hq1 name db Hc).
    by rewrite (Hq2 name db (Hk1 _ _ Hc)).
  - intros name. rewrite List.filter_app.
    destruct (Hc1 name) as [->|[Hlen [db Hc]]]; [exact (Hc2 name)|].
    right. rewrite (quiet_creates _ _ (Hq2 name db Hc)), app_nil_r.
    split; [done|]. exists db. by apply Hk2.
Qed.

Lemma effect_run w σ0 σ : rtc (step w) σ0 σ → ∃ l, effect w σ0 σ l.
Proof.
  induction 1 as [σ|σ0 σ1 σ Hs _ [l IH]].
  - exists []. apply effect_refl.
  - destruct (effect_step _ _ _ Hs) as [l1 H1].
    exists (l1 ++ l). by eapply effect_trans.
Qed.

(** C3: in every run of the process, from any world, the calls that
    [w.Open] and the proxies add to the log contain at most one [sql.Open]
    that made a pool handle for [name], and every connection for [name] is
    asked of one and the same handle; a handle that is cached for [name]
    stays cached, and from then on no [sql.Open] for [name] is made at
    all.  So of two successful [Open(name)], the second finds the handle
    the first left in the cache and asks its connection of it, with no
    [sql.Open] in between or after. *)
Theorem one_pool_per_name w name σ0 σ :
  rtc (step w) σ0 σ →
  (∃ l, log σ = log σ0 ++ l ∧
     length (List.filter (creates_pool name) l) ≤ 1 ∧
     (∀ db1 db2, Call_Driver_Open db1 name ∈ l →
                 Call_Driver_Open db2 name ∈ l → db1 = db2) ∧
     (∀ db, cached w name db σ0 →
            cached w name db σ ∧ List.filter (opens_pool name) l = [])) ∧
  (∀ σa p1 p2 σ',
     Breaker_Open w name σa = Some (Ok p1, σ0) →
     Breaker_Open w name σ = Some (Ok p2, σ') →
     ∃ db l0 l,
       cached w name db σ0 ∧ cached w name db σ ∧ cached w name db σ' ∧
       log σ0 = l0 ++ [Call_Driver_Open db name] ∧
       log σ = log σ0 ++ l ∧ List.filter (opens_pool name) l = [] ∧
       log σ' = log σ ++ [Call_Driver_Open db name]).
Proof.
  intros (l & Hl & Hk & Hd & Hq & Hc)%effect_run. split.
  - exists l. split_and!; [done| | |].
    + destruct (Hc name) as [->|[-> _]]; simpl; lia.
    + intros db1 db2 H1%Hd H2%Hd. by eapply cached_agree.
    + intros db Hdb. split; [by apply Hk|by eapply Hq].
  - intros σa p1 p2 σ' Ho1 Ho2.
    assert (∃ db l0, cached w name db σ0 ∧ log σ0 = l0 ++ [Call_Driver_Open db name])
      as (db & l0 & Hc0 & Hl0).
    { apply Open_log in Ho1 as (bk & Hw & [(_ & ? & _)|[(_ & db & Hdb & Hh & Hla)|
        [(_ & _ & e & ? & _)|(_ & Hn & db & Hh & Hla)]]]); [done| |done|].
      - exists db, (log σa). split; [|done].
        apply (cached_heap _ _ _ σa); [done|]. by exists bk.
      - exists db, (log σa ++ [Call_sql_Open (Breaker_native bk) name (Ok db)]).
        split; [|by rewrite Hla, <- app_assoc].
        destruct (cached_insert w name db bk σa Hw) as (b & Hb & Hb').
        exists b. by rewrite Hh. }
    exists db, l0, l.
    assert (cached w name db σ) as Hcσ by by apply Hk.
    split_and!; [done|done| |done|done|by eapply Hq|].
    + destruct (effect_Open _ _ _ _ _ Ho2) as (l2 & _ & Hk2 & _). by apply Hk2.
    + destruct Hcσ as (bk & Hw & Hdb).
      apply Open_log in Ho2 as (bk' & Hw' & [(_ & ? & _)|[(_ & db' & Hdb' & _ & Hl')|
        [(_ & _ & e & ? & _)|(_ & Hn & _)]]]); [done| |done|congruence].
      congruence.
Qed.

End Properties.

(** * More of the package's behaviour *)

Section Behaviour.
Context `{Native}.

(** ** [Disable] *)

(** X1: [Disable] is an overwrite.  Of two [Disable] in a row the second
    decides, on every Breaker address; and a [Disable] to the value the
    flag already has leaves the world as it is. *)
Theorem Disable_overwrites w a b σ :
  (Breaker_Disable w a;; Breaker_Disable w b) σ = Breaker_Disable w b σ ∧
  (∀ bk, heap σ !! w = Some bk →
         Breaker_Disable w (Breaker_down bk) σ = Some (tt, σ)).
Proof.
  split.
  - unfold Breaker_Disable, mbind, M_bind, store.
    destruct (heap σ !! w) as [bk|] eqn:Hw; [|done]. simpl.
    rewrite list_lookup_insert_eq by by eapply lookup_lt_Some.
    unfold set_heap. simpl. by rewrite list_insert_insert_eq.
  - intros bk Hw. rewrite (Disable_Some _ _ _ _ Hw).
    destruct σ as [ds h n l], bk as [d nat m]. unfold set_heap, set_down.
    cbn in *. do 3 f_equal. by apply list_insert_id.
Qed.

(** ** What a step does to the heap and the registry *)

Lemma Open_drivers w name σ r σ' :
  Breaker_Open w name σ = Some (r, σ') → drivers σ' = drivers σ.
Proof.
  intros (bk & Hw & [(_ & _ & ->)|(_ & rdb & σ1 & Hdb & Hr)])%Open_inv; [done|].
  assert (drivers σ1 = drivers σ) as Hd1.
  { apply Open_db_inv in Hdb as (bk' & _ & [(? & _ & _ & ->)|(_ & s & n & _ & _ & Hσ)]);
      [done|]. destruct s; by subst. }
  destruct rdb as [db|e].
  - destruct Hr as (rc & n & _ & -> & _). done.
  - destruct Hr as [_ ->]. done.
Qed.

Lemma gated_world {A} w p (k : M (result error A)) σ r σ' ev :
  proxy_of w p →
  (∀ σ1, ∃ r1, k σ1 = Some (r1, σ1) ∨ ∃ n, k σ1 = Some (r1, called σ1 n ev)) →
  (d ← Conn_down p; if (d : bool) then mret (Err ErrDown) else k) σ = Some (r, σ') →
  σ' = σ ∨ ∃ n, σ' = called σ n ev.
Proof.
  intros Hp Hk. rewrite Hp. unfold down_closure.
  intros (d & σ1 & (bk & σ2 & [_ ->]%load_inv & [= <- <-])%bind_inv & Hr)%bind_inv.
  destruct (Breaker_down bk).
  - injection Hr as _ <-. by left.
  - destruct (Hk σ) as (r1 & [Hk1|[n1 Hk1]]); rewrite Hk1 in Hr; injection Hr as _ <-.
    + by left.
    + right. by exists n1.
Qed.

(** The heap after a step: a flag written by [Disable], a handle added by
    [Open], a Breaker added by [NewDriver], or no change. *)
Lemma step_cases w σ σ' :
  step w σ σ' →
  (∀ name d, drivers σ !! name = Some d → drivers σ' !! name = Some d) ∧
  ((∃ off bk, heap σ !! w = Some bk ∧
      Breaker_Disable w off σ = Some (tt, σ') ∧
      heap σ' = <[w := set_down off bk]> (heap σ)) ∨
   (∃ t, heap σ' = heap σ ++ t) ∨
   (∃ bk name db, heap σ !! w = Some bk ∧ Breaker_dbs bk !! name = None ∧
      heap σ' = <[w := set_dbs (λ m, <[name := db]> m) bk]> (heap σ))).
Proof.
  assert (∀ σ1 : World, ∃ t, heap σ1 = heap σ1 ++ t) as Hsame.
  { intros σ1. exists []. by rewrite app_nil_r. }
  intros [off Hs|name r Hs|p query r Hp Hs|p r Hp Hs|p r Hp Hs
         |p ctx opts r Hp Hs|name native r Hs].
  - pose proof Hs as (bk & Hw & _ & ->)%Disable_inv. split; [done|].
    left. by exists off, bk.
  - split; [by rewrite (Open_drivers _ _ _ _ _ Hs)|].
    apply Open_log in Hs as (bk & Hw & [(_ & _ & ->)|[(_ & db & _ & -> & _)|
      [(_ & _ & e & _ & -> & _)|(_ & Hc & db & Hh & _)]]]);
      [right; left; exact (Hsame σ)..|].
    right. right. by exists bk, name, db.
  - apply (gated_world w p _ σ r σ' (Call_Prepare query)) in Hs as [->|[n ->]];
      [split; [done|right; left; exact (Hsame σ)]..|done|].
    intros σ1. eexists. right. eexists. reflexivity.
  - injection Hs as _ <-. split; [done|]. right. left. exact (Hsame σ).
  - apply (gated_world w p _ σ r σ' Call_Begin) in Hs as [->|[n ->]];
      [split; [done|right; left; exact (Hsame σ)]..|done|].
    intros σ1. eexists. right. eexists. reflexivity.
  - apply (gated_world w p _ σ r σ' (Call_BeginTx ctx opts)) in Hs as [->|[n ->]];
      [split; [done|right; left; exact (Hsame σ)]..|done|].
    intros σ1. destruct (Conn_b p) as [b|].
    + eexists. right. eexists. reflexivity.
    + eexists. left. reflexivity.
  - destruct (NewDriver_cases name native σ) as [Hdup Hnew].
    destruct (drivers σ !! name) eqn:Hd.
    + rewrite Hdup in Hs by done. injection Hs as _ <-.
      split; [done|]. right. left. exact (Hsame σ).
    + rewrite Hnew in Hs by done. injection Hs as _ <-. split.
      * intros name' d Hn. simpl. rewrite lookup_insert_ne; [done|]. congruence.
      * right. left. by eexists.
Qed.

Lemma heap_agree (h : list Breaker) (w : nat) bk bk' :
  h !! w = Some bk → h !! w = Some bk' → bk = bk'.
Proof. congruence. Qed.

Lemma extends_refl σ : extends σ σ.
Proof. split; [done|]. intros w bk Hw. by exists bk. Qed.

Lemma extends_trans σ1 σ2 σ3 : extends σ1 σ2 → extends σ2 σ3 → extends σ1 σ3.
Proof.
  intros [Hd1 Hh1] [Hd2 Hh2]. split.
  - intros name d Hn. by apply Hd2, Hd1.
  - intros w bk Hw.
    destruct (Hh1 w bk Hw) as (bk2 & Hw2 & Hn2 & Hs2).
    destruct (Hh2 w bk2 Hw2) as (bk3 & Hw3 & Hn3 & Hs3).
    exists bk3. split_and!; [done|congruence|by etrans].
Qed.

Lemma step_extends w σ σ' : step w σ σ' → extends σ σ'.
Proof.
  intros [Hd [(off & bk & Hw & _ & Hh)|[[t Hh]|(bk & name & db & Hw & Hc & Hh)]]]%step_cases;
    (split; [done|]); intros w0 bk0 Hw0; rewrite Hh.
  - destruct (decide (w0 = w)) as [->|Hne].
    + exists (set_down off bk).
      rewrite list_lookup_insert_eq by by eapply lookup_lt_Some.
      by rewrite (heap_agree _ _ _ _ Hw0 Hw).
    + exists bk0. by rewrite list_lookup_insert_ne.
  - exists bk0. rewrite lookup_app_l; [done|]. by eapply lookup_lt_Some.
  - destruct (decide (w0 = w)) as [->|Hne].
    + exists (set_dbs (λ m, <[name := db]> m) bk).
      rewrite list_lookup_insert_eq by by eapply lookup_lt_Some.
      rewrite (heap_agree _ _ _ _ Hw0 Hw).
      split_and!; [done|done|]. simpl. by apply insert_subseteq.
    + exists bk0. by rewrite list_lookup_insert_ne.
Qed.

(** A step on [w] leaves every other Breaker as it is. *)
Lemma step_other w w' σ σ' bk :
  step w σ σ' → w' ≠ w → heap σ !! w' = Some bk → heap σ' !! w' = Some bk.
Proof.
  intros [_ [(off & bk0 & _ & _ & Hh)|[[t Hh]|(bk0 & name & db & _ & _ & Hh)]]]%step_cases
    Hne Hw; rewrite Hh.
  - by rewrite list_lookup_insert_ne.
  - rewrite lookup_app_l; [done|]. by eapply lookup_lt_Some.
  - by rewrite list_lookup_insert_ne.
Qed.


(** X3: the flag of a Breaker changes only by [Disable] on that Breaker:
    if one call into the package, on any Breaker or proxy, leaves the flag
    of [w] different, that call was [w.Disable] with the new value.  [Open],
    [Prepare], [Begin], [BeginTx], [Close] and [NewDriver] never move it. *)
Theorem gate_moves_only_by_Disable w σ σ' bk bk' :
  anystep σ σ' →
  heap σ !! w = Some bk →
  heap σ' !! w = Some bk' →
  Breaker_down bk' ≠ Breaker_down bk →
  Breaker_Disable w (Breaker_down bk') σ = Some (tt, σ').
Proof.
  intros [w0 Hs] Hw Hw' Hne.
  destruct (decide (w = w0)) as [<-|Hw0].
  - apply step_cases in Hs
      as [_ [(off & bk0 & Hw1 & Hd & Hh)|[[t Hh]|(bk0 & name & db & Hw1 & _ & Hh)]]];
      rewrite Hh in Hw'.
    + rewrite list_lookup_insert_eq in Hw' by by eapply lookup_lt_Some.
      injection Hw' as <-. done.
    + rewrite lookup_app_l in Hw' by by eapply lookup_lt_Some.
      by destruct Hne; rewrite (heap_agree _ _ _ _ Hw Hw').
    + rewrite list_lookup_insert_eq in Hw' by by eapply lookup_lt_Some.
      injection Hw' as <-. simpl in Hne.
      by destruct Hne; rewrite (heap_agree _ _ _ _ Hw Hw1).
  - pose proof (step_other _ _ _ _ _ Hs Hw0 Hw) as Hw2.
    by destruct Hne; rewrite (heap_agree _ _ _ _ Hw2 Hw').
Qed.

Lemma run_extends σ σ' : rtc anystep σ σ' → extends σ σ'.
Proof.
  induction 1 as [σ|σ σ1 σ' [w Hs] _ IH]; [apply extends_refl|].
  eapply extends_trans; [by eapply step_extends|done].
Qed.

(** X8: over any run of calls into the package nothing is taken away: a
    registered name stays bound to the same driver, an allocated Breaker
    stays allocated with the native driver name it was made with, and every
    pool handle in its cache stays there under its name. *)
Theorem world_only_grows σ σ' name d w bk :
  rtc anystep σ σ' →
  (drivers σ !! name = Some d → drivers σ' !! name = Some d) ∧
  (heap σ !! w = Some bk →
     ∃ bk', heap σ' !! w = Some bk' ∧
            Breaker_native bk' = Breaker_native bk ∧
            ∀ n db, Breaker_dbs bk !! n = Some db → Breaker_dbs bk' !! n = Some db).
Proof.
  intros [Hd Hh]%run_extends. split; [apply Hd|].
  intros Hw. destruct (Hh w bk Hw) as (bk' & Hw' & Hn & Hs).
  exists bk'. split_and!; [done|done|].
  intros n db Hdb. by eapply lookup_weaken.
Qed.

(** ** Panics *)



Lemma NewDriver_Ok_inv name native σ w σ' :
  NewDriver name native σ = Some (Ok w, σ') →
  drivers σ !! name = None ∧ w = length (heap σ) ∧
  drivers σ' !! name = Some (BreakerDriver w) ∧
  heap σ' !! w = Some {| Breaker_down := false; Breaker_native := native;
                         Breaker_dbs := ∅ |}.
Proof.
  intros Hn. destruct (NewDriver_cases name native σ) as [Hdup Hnew].
  destruct (drivers σ !! name) eqn:Hd.
  - rewrite Hdup in Hn by done. done.
  - rewrite Hnew in Hn by done. injection Hn as <- <-.
    split_and!; [done|done|apply lookup_insert_eq|].
    simpl. by rewrite lookup_app_r, Nat.sub_diag.
Qed.


(** ** Registration over time *)

(** X9: a name that [NewDriver] has registered stays taken: after any run
    of calls it is still bound to the Breaker [NewDriver] returned, and
    every later [NewDriver] under that name fails and changes nothing. *)
Theorem NewDriver_name_stays_taken name native native' σ0 w σ1 σ :
  NewDriver name native σ0 = Some (Ok w, σ1) →
  rtc anystep σ1 σ →
  drivers σ !! name = Some (BreakerDriver w) ∧
  NewDriver name native' σ =
    Some (Err (Errorf "driver %q is already registered" [name]), σ).
Proof.
  intros (_ & _ & Hd1 & _)%NewDriver_Ok_inv [Hd _]%run_extends.
  split; [by apply Hd|].
  apply (NewDriver_cases name native' σ). exists (BreakerDriver w). by apply Hd.
Qed.

(** X10: two successful [NewDriver], with any calls in between, are for
    different names and return different Breakers, and the first Breaker is
    still allocated beside the second. *)
Theorem NewDriver_distinct n1 native1 n2 native2 σ0 w1 σ1 σ w2 σ2 :
  NewDriver n1 native1 σ0 = Some (Ok w1, σ1) →
  rtc anystep σ1 σ →
  NewDriver n2 native2 σ = Some (Ok w2, σ2) →
  n1 ≠ n2 ∧ w1 ≠ w2 ∧ is_Some (heap σ2 !! w1) ∧
  heap σ2 !! w2 = Some {| Breaker_down := false; Breaker_native := native2;
                          Breaker_dbs := ∅ |}.
Proof.
  intros (_ & _ & Hd1 & Hw1)%NewDriver_Ok_inv [Hd Hh]%run_extends Hn2.
  pose proof (step_extends 0 _ _ (step_NewDriver 0 _ _ _ _ _ Hn2)) as [_ Hh2].
  apply NewDriver_Ok_inv in Hn2 as (Hfree & -> & _ & Hw2).
  destruct (Hh _ _ Hw1) as (bk & Hw & _).
  split_and!.
  - intros <-. rewrite (Hd _ _ Hd1) in Hfree. done.
  - apply lookup_lt_Some in Hw. lia.
  - destruct (Hh2 _ _ Hw) as (bk2 & Hw2' & _). by exists bk2.
  - done.
Qed.

(** ** The paths through [Open] *)



(** X6: what a successful [Open] tells: the Breaker was enabled; the name
    now has a handle in the cache, and the proxy wraps the very connection
    the native driver gave for that handle and that name; the proxy's [b] is
    that connection's [BeginTx] if it has one, its [db] field is nil, and
    its [down] reads the Breaker. *)
Theorem Open_Ok_inv w name σ p σ' :
  Breaker_Open w name σ = Some (Ok p, σ') →
  (∃ bk, heap σ !! w = Some bk ∧ Breaker_down bk = false) ∧
  (∃ db n0, cached w name db σ' ∧
            DB_Driver_Open db name n0 = (Ok (Conn_c p), native_state σ')) ∧
  Conn_b p = c_BeginTx (Conn_c p) ∧
  Conn_db p = None ∧
  Conn_down p = down_closure w.
Proof.
  intros Ho. pose proof (Open_proxy _ _ _ _ _ Ho) as (Hp & Hb & Hdbn).
  split_and!; [| |done|done|done].
  - apply Open_inv in Ho as (bk & Hw & [(_ & ? & _)|(Hd & _)]); [done|].
    by exists bk.
  - apply Open_inv in Ho as (bk & Hw & [(_ & ? & _)|(Hd & rdb & σ1 & Hdb & Hr)]); [done|].
    destruct rdb as [db|e]; [|by destruct Hr].
    destruct Hr as (rc & n & Hc & -> & Hr).
    destruct rc as [c|e]; [|done]. injection Hr as ->.
    exists db, (native_state σ1). split; [|done].
    apply Open_db_inv in Hdb as (bk' & Hw' & [(db' & Hdb' & [= <-] & ->)|
      (Hn & s & n1 & Hs & Hrs & Hσ)]).
    + by exists bk'.
    + destruct s as [db'|e]; simpl in Hrs; [|done]. injection Hrs as <-.
      subst σ1. apply (cached_insert w name db bk'). done.
Qed.

End Behaviour.

(** * The theorems on the small native side *)

Import Toy.

(** The test scenario: blocked while disabled, working before and after. *)
Example TestBreaker_runs :
  fst <$> TestBreaker start = Some [Ok "insert"; Err ErrDown; Ok "insert"].
Proof. vm_compute. reflexivity. Qed.

(** [Open] on the small native side, with the Breaker enabled. *)
Lemma toy_Open name :
  name = "test.db" ∨ name = "legacy.db" →
  Breaker_Open 0 name wrapped = Some (Ok (proxy name), opened name false).
Proof. intros [->| ->]; vm_compute; reflexivity. Qed.

Lemma toy_heap name off :
  heap (opened name off) !! 0 =
    Some {| Breaker_down := off; Breaker_native := "sqlite3";
            Breaker_dbs := {[ name := name ]} |}.
Proof. reflexivity. Qed.

(** C1 on the small native side: the proxy made while the Breaker was
    enabled fails in the disabled world and works in the enabled one. *)
Lemma gate_read_at_call_witness :
  Conn_Prepare (proxy "test.db") "select 1" (opened "test.db" true)
    = Some (Err ErrDown, opened "test.db" true) ∧
  Conn_Prepare (proxy "test.db") "select 1" (opened "test.db" false)
    = Some (Ok "select 1", called (opened "test.db" false) 3 (Call_Prepare "select 1")).
Proof.
  split.
  - exact (proj1 (gate_read_at_call 0 "test.db" wrapped (opened "test.db" false)
                    (proxy "test.db") (opened "test.db" true) _ "select 1" tt false
                    (toy_Open "test.db" (or_introl eq_refl)) (toy_heap "test.db" true))).
  - exact (proj1 (gate_read_at_call 0 "test.db" wrapped (opened "test.db" false)
                    (proxy "test.db") (opened "test.db" false) _ "select 1" tt false
                    (toy_Open "test.db" (or_introl eq_refl)) (toy_heap "test.db" false))).
Defined.

(** C2 on the small native side. *)
Lemma Open_disabled_witness :
  Breaker_Open 0 "other.db" (opened "test.db" true)
    = Some (Err ErrDown, opened "test.db" true).
Proof.
  apply (Open_disabled 0 "other.db" (opened "test.db" true) _ (toy_heap "test.db" true)).
  reflexivity.
Defined.

(** The run [Open("test.db")], [Disable(true)], [Disable(false)],
    [Open("test.db")] from [wrapped] ends in [twice]. *)
Lemma toy_run : rtc (step 0) wrapped twice.
Proof.
  eapply rtc_l; [eapply (step_Open 0 _ _ "test.db"); vm_compute; reflexivity|].
  eapply rtc_l; [eapply (step_Disable 0 _ _ true); vm_compute; reflexivity|].
  eapply rtc_l; [eapply (step_Disable 0 _ _ false); vm_compute; reflexivity|].
  eapply rtc_l; [eapply (step_Open 0 _ _ "test.db"); vm_compute; reflexivity|].
  apply rtc_refl.
Qed.

(** C3 on the small native side: two [Open] of [test.db], one [sql.Open]. *)
Lemma one_pool_per_name_witness :
  rtc (step 0) wrapped twice ∧
  ∃ l, log twice = log wrapped ++ l ∧
       length (List.filter (creates_pool "test.db") l) ≤ 1.
Proof.
  split; [exact toy_run|].
  destruct (one_pool_per_name 0 "test.db" wrapped twice toy_run)
    as [(l & Hl & Hlen & _) _].
  exists l. split; assumption.
Defined.

(** C4 on the small native side: the three outcomes of [BeginTx]. *)
Lemma BeginTx_order_witness :
  Conn_BeginTx (proxy "test.db") tt false (opened "test.db" true)
    = Some (Err ErrDown, opened "test.db" true) ∧
  Conn_BeginTx (proxy "legacy.db") tt false (opened "legacy.db" false)
    = Some (Err ErrContext, opened "legacy.db" false) ∧
  Conn_BeginTx (proxy "test.db") tt false (opened "test.db" false)
    = Some (Ok 2, called (opened "test.db" false) 3 (Call_BeginTx tt false)).
Proof.
  split_and!.
  - apply (proj1 (BeginTx_order 0 "test.db" wrapped _ _ _ _ tt false
                    (toy_Open "test.db" (or_introl eq_refl)) (toy_heap "test.db" true))).
    reflexivity.
  - apply (proj1 (proj2 (BeginTx_order 0 "legacy.db" wrapped _ _ _ _ tt false
                    (toy_Open "legacy.db" (or_intror eq_refl)) (toy_heap "legacy.db" false))));
      reflexivity.
  - apply (proj2 (proj2 (BeginTx_order 0 "test.db" wrapped _ _ _ _ tt false
                    (toy_Open "test.db" (or_introl eq_refl)) (toy_heap "test.db" false)))
             (λ _ _ n, (Ok n, S n))); reflexivity.
Defined.

(** C5 does not hold of the code when the Breaker is disabled: on a proxy
    whose native connection has no [BeginTx], [BeginTx] then returns
    [ErrDown], not [ErrContext]. *)
Lemma BeginTx_unsupported_while_disabled :
  Breaker_Open 0 "legacy.db" wrapped
    = Some (Ok (proxy "legacy.db"), opened "legacy.db" false) ∧
  c_BeginTx (Conn_c (proxy "legacy.db")) = None ∧
  Breaker_Disable 0 true (opened "legacy.db" false)
    = Some (tt, opened "legacy.db" true) ∧
  Conn_BeginTx (proxy "legacy.db") tt false (opened "legacy.db" true)
    = Some (Err ErrDown, opened "legacy.db" true) ∧
  ¬ ∃ σ', Conn_BeginTx (proxy "legacy.db") tt false (opened "legacy.db" true)
            = Some (Err ErrContext, σ').
Proof.
  split_and!; [vm_compute; reflexivity..|].
  intros [σ' Hσ]. vm_compute in Hσ. discriminate Hσ.
Qed.

(** C5, as the code has it, on the small native side. *)
Lemma BeginTx_unsupported_witness :
  Conn_BeginTx (proxy "legacy.db") tt false (opened "legacy.db" false)
    = Some (Err ErrContext, opened "legacy.db" false) ∧
  Conn_BeginTx (proxy "legacy.db") tt false (opened "legacy.db" true)
    = Some (Err ErrDown, opened "legacy.db" true).
Proof.
  split.
  - exact (BeginTx_unsupported 0 "legacy.db" wrapped _ _ _ _ tt false
             (toy_Open "legacy.db" (or_intror eq_refl)) eq_refl
             (toy_heap "legacy.db" false)).
  - exact (BeginTx_unsupported 0 "legacy.db" wrapped _ _ _ _ tt false
             (toy_Open "legacy.db" (or_intror eq_refl)) eq_refl
             (toy_heap "legacy.db" true)).
Defined.

(** C6 on the small native side: [Close] after [Disable(true)]. *)
Lemma Close_not_gated_witness :
  Breaker_Disable 0 true (opened "test.db" false) = Some (tt, opened "test.db" true) ∧
  Conn_Close (proxy "test.db") (opened "test.db" true)
    = Some (None, called (opened "test.db" true) 3 Call_Close).
Proof.
  assert (Breaker_Disable 0 true (opened "test.db" false)
          = Some (tt, opened "test.db" true)) as Hd by (vm_compute; reflexivity).
  split; [exact Hd|].
  exact (proj1 (proj2 (Close_not_gated (proxy "test.db") (opened "test.db" false)))
           0 true _ Hd).
Defined.

(** C7 on the small native side: the driver under the Breaker is unknown
    to [database/sql]. *)
Lemma Open_sql_Open_fails_witness :
  ∃ σ', Breaker_Open 0 "test.db" orphan
          = Some (Err (ForeignError "sql: unknown driver"), σ') ∧
        heap σ' = heap orphan ∧
        drivers σ' = drivers orphan ∧
        native_state σ' = 0 ∧
        log σ' = log orphan ++ [Call_sql_Open "postgres" "test.db"
                                  (Err (ForeignError "sql: unknown driver"))].
Proof.
  apply (Open_sql_Open_fails 0 "test.db" orphan
           {| Breaker_down := false; Breaker_native := "postgres"; Breaker_dbs := ∅ |});
    reflexivity.
Defined.

(** C8 on the small native side: a taken name and a free one. *)
Lemma NewDriver_registers_witness :
  NewDriver "sqlite3" "sqlite3" start
    = Some (Err (Errorf "driver %q is already registered" ["sqlite3"]), start) ∧
  NewDriver "wrapper" "sqlite3" start = Some (Ok 0, wrapped).
Proof.
  split.
  - apply (proj1 (NewDriver_registers "sqlite3" "sqlite3" start)).
    exists NativeDriver. vm_compute. reflexivity.
  - apply (proj1 (proj2 (NewDriver_registers "wrapper" "sqlite3" start))).
    vm_compute. reflexivity.
Defined.

(** C9 does not hold of the code: the two errors carry other messages. *)
Lemma sentinel_messages_differ :
  Error ErrDown ≠ "access is disabled" ∧
  Error ErrContext ≠
    "context-based transaction begin not supported by the underlying connection".
Proof. split; intros Hm; vm_compute in Hm; discriminate Hm. Qed.

(** C9, as the code has it, on the small native side. *)
Lemma sentinel_errors_witness :
  Error ErrDown = "database is down" ∧
  Error ErrContext = "context operations are not supported" ∧
  Conn_Prepare (proxy "legacy.db") "select 1" (opened "legacy.db" true)
    = Some (Err ErrDown, opened "legacy.db" true).
Proof.
  destruct (sentinel_errors 0 "legacy.db" wrapped _ _ _ _ "select 1" tt false
              (toy_Open "legacy.db" (or_intror eq_refl)) (toy_heap "legacy.db" true))
    as (H1 & H2 & H3 & _).
  split_and!; [exact H1|exact H2|].
  exact (proj1 (proj2 (H3 eq_refl))).
Defined.

(** C10 on the small native side: [legacy.db] has no [BeginTx], and [Open]
    succeeds. *)
Lemma Open_without_BeginTx_witness :
  ∃ p, Breaker_Open 0 "legacy.db" wrapped
         = Some (Ok p, opened "legacy.db" false) ∧
       Conn_b p = None ∧
       Conn_Begin p (opened "legacy.db" false)
         = Some (Ok 2, called (opened "legacy.db" false) 3 Call_Begin).
Proof.
  destruct (Open_without_BeginTx 0 "legacy.db" wrapped
              {| Breaker_down := false; Breaker_native := "sqlite3"; Breaker_dbs := ∅ |}
              "legacy.db" (pooled "legacy.db") (conn "legacy.db") 2)
    as (p & Ho & _ & Hb & Hg); [reflexivity|reflexivity|vm_compute; reflexivity
                               |reflexivity|reflexivity|].
  exists p. split_and!; [exact Ho|exact Hb|].
  exact (proj1 (proj2 (Hg (opened "legacy.db" false) _ (toy_heap "legacy.db" false)))).
Defined.

(** ** More of the package's behaviour, on the small native side *)

Lemma toy_anyrun : rtc anystep wrapped twice.
Proof.
  eapply rtc_subrel; [|exact toy_run]. intros σ σ' Hs. by exists 0.
Qed.

Lemma toy_NewDriver : NewDriver "wrapper" "sqlite3" start = Some (Ok 0, wrapped).
Proof. vm_compute. reflexivity. Qed.

(** X1 on the small native side: off, then on again, is as before. *)
Lemma Disable_overwrites_witness :
  (Breaker_Disable 0 true;; Breaker_Disable 0 false) wrapped = Some (tt, wrapped).
Proof.
  rewrite (proj1 (Disable_overwrites 0 true false wrapped)).
  exact (proj2 (Disable_overwrites 0 true false wrapped) _ eq_refl).
Defined.


(** X3 on the small native side: the flag went up, so the call was
    [Disable(true)]. *)
Lemma gate_moves_only_by_Disable_witness :
  Breaker_Disable 0 true (opened "test.db" false) = Some (tt, opened "test.db" true).
Proof.
  apply (gate_moves_only_by_Disable 0 (opened "test.db" false) (opened "test.db" true)
           {| Breaker_down := false; Breaker_native := "sqlite3";
              Breaker_dbs := {[ "test.db" := "test.db" ]} |}
           {| Breaker_down := true; Breaker_native := "sqlite3";
              Breaker_dbs := {[ "test.db" := "test.db" ]} |}).
  - exists 0. apply (step_Disable 0 _ _ true). vm_compute. reflexivity.
  - exact (toy_heap "test.db" false).
  - exact (toy_heap "test.db" true).
  - simpl. discriminate.
Defined.



(** X6 on the small native side. *)
Lemma Open_Ok_inv_witness :
  (∃ bk, heap wrapped !! 0 = Some bk ∧ Breaker_down bk = false) ∧
  (∃ db n0, cached 0 "test.db" db (opened "test.db" false) ∧
            DB_Driver_Open db "test.db" n0
              = (Ok (Conn_c (proxy "test.db")), native_state (opened "test.db" false))).
Proof.
  destruct (Open_Ok_inv 0 "test.db" wrapped _ _ (toy_Open "test.db" (or_introl eq_refl)))
    as (H1 & H2 & _).
  split; [exact H1|exact H2].
Defined.


(** X8 on the small native side: the registration survives the run. *)
Lemma world_only_grows_witness :
  drivers twice !! "wrapper" = Some (BreakerDriver 0) ∧
  ∃ bk', heap twice !! 0 = Some bk' ∧ Breaker_native bk' = "sqlite3".
Proof.
  destruct (world_only_grows wrapped twice "wrapper" (BreakerDriver 0) 0
              {| Breaker_down := false; Breaker_native := "sqlite3"; Breaker_dbs := ∅ |}
              toy_anyrun) as [Hd Hh].
  split; [apply Hd; vm_compute; reflexivity|].
  destruct (Hh eq_refl) as (bk' & Hw & Hn & _). by exists bk'.
Defined.

(** X9 on the small native side: a second registration of [wrapper]. *)
Lemma NewDriver_name_stays_taken_witness :
  NewDriver "wrapper" "postgres" twice
    = Some (Err (Errorf "driver %q is already registered" ["wrapper"]), twice).
Proof.
  exact (proj2 (NewDriver_name_stays_taken "wrapper" "sqlite3" "postgres" start 0
                  wrapped twice toy_NewDriver toy_anyrun)).
Defined.

(** X10 on the small native side: [wrapper], then [second]. *)
Lemma NewDriver_distinct_witness :
  NewDriver "second" "sqlite3" wrapped = Some (Ok 1, second) ∧
  is_Some (heap second !! 0) ∧
  heap second !! 1 = Some {| Breaker_down := false; Breaker_native := "sqlite3";
                             Breaker_dbs := ∅ |}.
Proof.
  assert (NewDriver "second" "sqlite3" wrapped = Some (Ok 1, second)) as Hn
    by (vm_compute; reflexivity).
  destruct (NewDriver_distinct "wrapper" "sqlite3" "second" "sqlite3" start 0 wrapped
              wrapped 1 second toy_NewDriver (rtc_refl _ _) Hn) as (_ & _ & H0 & H1).
  split_and!; [exact Hn|exact H0|exact H1].
Defined.
